(** * The debate graph of atg-langgraph-debate: a shallow embedding

    The development follows [src/graph.py] (prompts, [format_history],
    [agent_node], [judge_node], [router], [get_graph]) and the driver loop of
    [src/main.py].  Python strings are sequences of Unicode code points;
    Python exceptions are values of [exn]; the language model behind
    [chain.invoke] is an oracle indexed by the number of calls made so far;
    what the libraries do (the message type, the graph loop) is stated where
    it is used. *)

From Stdlib Require Import String Ascii.
From Stdlib Require Import List ZArith NArith Bool Lia.
Import ListNotations.

Set Implicit Arguments.

(** ** Python strings *)

(** A [str] is a sequence of code points. *)
Definition char := N.
Definition str := list char.

(** The code points of an ASCII literal of the source. *)
Definition lit (s : string) : str :=
  map N_of_ascii (list_ascii_of_string s).

(** [a == b] on strings. *)
Fixpoint str_eqb (a b : str) : bool :=
  match a, b with
  | [], [] => true
  | x :: a', y :: b' => (x =? y)%N && str_eqb a' b'
  | _, _ => false
  end.

(** [c.isspace()]: the white-space code points of CPython's Unicode table. *)
Definition isspace (c : char) : bool :=
  ((9 <=? c) && (c <=? 13) || (28 <=? c) && (c <=? 32)
   || (c =? 133) || (c =? 160) || (c =? 5760)
   || (8192 <=? c) && (c <=? 8202)
   || (c =? 8232) || (c =? 8233) || (c =? 8239) || (c =? 8287)
   || (c =? 12288))%N.

(** [s.lstrip()], [s.rstrip()] and [s.strip()] without argument. *)
Fixpoint lstrip (s : str) : str :=
  match s with
  | [] => []
  | c :: s' => if isspace c then lstrip s' else s
  end.

Definition rstrip (s : str) : str := rev (lstrip (rev s)).

Definition strip (s : str) : str := rstrip (lstrip s).

(** [s.startswith(sub)]. *)
Fixpoint startswith (s sub : str) {struct sub} : bool :=
  match sub, s with
  | [], _ => true
  | _ :: _, [] => false
  | p :: sub', c :: s' => (c =? p)%N && startswith s' sub'
  end.

(** [s.find(sub)]: the lowest index at which [sub] occurs, if any. *)
Fixpoint find (s sub : str) : option nat :=
  if startswith s sub then Some 0
  else match s with
       | [] => None
       | _ :: s' => option_map S (find s' sub)
       end.

(** [sub in s]. *)
Definition contains (s sub : str) : bool :=
  match find s sub with Some _ => true | None => false end.

(** [s[a:b]] for [0 <= a] and [0 <= b]. *)
Definition slice (s : str) (a b : nat) : str := firstn (b - a) (skipn a s).

(** Every index at which [sub] occurs in [s], overlapping occurrences too. *)
Definition occurrences (s sub : str) : list nat :=
  filter (fun i => startswith (skipn i s) sub) (seq 0 (S (length s))).

(** The loop of [s.split(sep)] for a non-empty [sep]: search the next
    occurrence from the current position, emit the piece before it, resume
    behind it; the last piece is what remains.  Each round consumes at least
    one character, so [length s] rounds are enough ([split_pieces_unfold]). *)
Fixpoint split_pieces (rounds : nat) (s sep : str) : list str :=
  match rounds with
  | O => [s]
  | S k =>
    match find s sep with
    | None => [s]
    | Some i => firstn i s :: split_pieces k (skipn (i + length sep) s) sep
    end
  end.

(** ** Exceptions *)

Inductive exn :=
  IndexError | ValueError | KeyError | TypeError | GraphRecursionError.

Inductive res (A : Type) : Type :=
| Ok (a : A)
| Raise (e : exn).
Arguments Raise {A} e.

Definition res_bind {A B} (c : res A) (k : A -> res B) : res B :=
  match c with
  | Ok a => k a
  | Raise e => Raise e
  end.

Notation "'let?' x ':=' c 'in' k" := (res_bind c (fun x => k))
  (at level 10, x name, c at level 100, k at level 200).

(** [s.split(sep)]; an empty separator is a [ValueError]. *)
Definition split (s sep : str) : res (list str) :=
  match sep with
  | [] => Raise ValueError
  | _ :: _ => Ok (split_pieces (length s) s sep)
  end.

(** [l[i]] for [0 <= i]. *)
Definition index {A} (l : list A) (i : nat) : res A :=
  match nth_error l i with
  | Some a => Ok a
  | None => Raise IndexError
  end.

(** [str(n)] for a non-negative integer: its decimal digits. *)
Fixpoint digits (d : Decimal.uint) : str :=
  match d with
  | Decimal.Nil => []
  | Decimal.D0 d => 48%N :: digits d
  | Decimal.D1 d => 49%N :: digits d
  | Decimal.D2 d => 50%N :: digits d
  | Decimal.D3 d => 51%N :: digits d
  | Decimal.D4 d => 52%N :: digits d
  | Decimal.D5 d => 53%N :: digits d
  | Decimal.D6 d => 54%N :: digits d
  | Decimal.D7 d => 55%N :: digits d
  | Decimal.D8 d => 56%N :: digits d
  | Decimal.D9 d => 57%N :: digits d
  end.

Definition str_of_nat (n : nat) : str := digits (Nat.to_uint n).

(** ** The language model

    [chain = prompt | llm | StrOutputParser()] followed by [chain.invoke]:
    the prompt template is filled with the topic and the formatted history
    and sent to the model, whose answer is returned as a string.  The model
    is outside the program: [LLM] gives its answer to the [n]-th call. *)

Inductive Prompt := scientist_prompt | philosopher_prompt | judge_prompt.

Record Request := mkRequest {
  req_prompt : Prompt;
  req_topic : str;
  req_history : str
}.

Definition LLM := nat -> Request -> str.

(** Computations that call the model and may raise: the state is the number
    of calls made so far. *)
Definition M (A : Type) : Type := nat -> res (A * nat).

Definition ret {A} (a : A) : M A := fun n => Ok (a, n).

Definition bind {A B} (c : M A) (k : A -> M B) : M B :=
  fun n => match c n with
           | Ok (a, n') => k a n'
           | Raise e => Raise e
           end.

Definition lift {A} (r : res A) : M A :=
  fun n => match r with
           | Ok a => Ok (a, n)
           | Raise e => Raise e
           end.

Notation "x <- c ;; k" := (bind c (fun x => k))
  (at level 61, c at next level, right associativity).

Definition chain_invoke (llm : LLM) (p : Prompt) (topic history : str) : M str :=
  fun n => Ok (llm n (mkRequest p topic history), S n).

(** ** graph.py: state *)

(** Modelled from the spec: the items of [messages], of the type [AnyMessage]
    that langchain_core declares and src/ does not.  As the specification's
    Utterance, a message carries its text ([content]) and its speaker
    ([name]), the two attributes the nodes and the driver read. *)
Record Message := AnyMessage {
  content : str;
  name : str
}.

(** [GraphState].  The driver's initial state has no [winner],
    [justification] or [summary] key, hence the options. *)
Record GraphState := mkState {
  topic : str;
  messages : list Message;
  round_number : Z;
  next_speaker : str;
  winner : option str;
  justification : option str;
  summary : option str
}.

(** What a node returns: a dict with some of the state's keys. *)
Record Update := mkUpdate {
  u_topic : option str;
  u_messages : option (list Message);
  u_round_number : option Z;
  u_next_speaker : option str;
  u_winner : option str;
  u_justification : option str;
  u_summary : option str
}.

Definition overwrite {A} (old : A) (new : option A) : A :=
  match new with Some v => v | None => old end.

Definition overwrite_opt {A} (old new : option A) : option A :=
  match new with Some v => Some v | None => old end.

(** How the graph merges a node's output into the state: [messages] has the
    reducer [lambda x, y: x + y], every other key is overwritten when the
    output has it. *)
Definition apply_update (st : GraphState) (u : Update) : GraphState :=
  {| topic := overwrite (topic st) (u_topic u);
     messages := match u_messages u with
                 | Some y => messages st ++ y
                 | None => messages st
                 end;
     round_number := overwrite (round_number st) (u_round_number u);
     next_speaker := overwrite (next_speaker st) (u_next_speaker u);
     winner := overwrite_opt (winner st) (u_winner u);
     justification := overwrite_opt (justification st) (u_justification u);
     summary := overwrite_opt (summary st) (u_summary u) |}.

(** ** graph.py: node functions *)

Definition nl : str := [10%N].

(** [enumerate(l)]. *)
Definition enumerate {A} (l : list A) : list (nat * A) :=
  combine (seq 0 (length l)) l.

(** The speaker label of position [i]: [i % 2 == 0]. *)
Definition speaker_label (i : nat) : str :=
  if Nat.eqb (i mod 2) 0 then lit "Scientist" else lit "Philosopher".

(** [f"[Round {i+1}] {speaker}: {msg.content}\n"]. *)
Definition history_line (i : nat) (msg : Message) : str :=
  lit "[Round " ++ str_of_nat (i + 1) ++ lit "] " ++ speaker_label i
      ++ lit ": " ++ content msg ++ nl.

Definition format_history (messages : list Message) : str :=
  match messages with
  | [] => lit "The debate has not started yet."
  | _ :: _ =>
    let history_str :=
      fold_left (fun history_str im => history_str ++ history_line (fst im) (snd im))
                (enumerate messages) [] in
    strip history_str
  end.

Definition filler : str :=
  lit "I will restate my previous point to emphasize its importance.".

(** [agent_node], with what the call [AnyMessage(content=response,
    name=speaker)] of its line 108 does left open as [instantiate]. *)
Definition agent_node_with (instantiate : str -> str -> res Message)
    (llm : LLM) (state : GraphState) : M Update :=
  let speaker := next_speaker state in
  let prompt := if str_eqb speaker (lit "Scientist")
                then scientist_prompt else philosopher_prompt in
  response <- chain_invoke llm prompt (topic state)
                           (format_history (messages state)) ;;
  let response :=
    if existsb (str_eqb response) (map content (messages state))
    then filler else response in
  new_message <- lift (instantiate response speaker) ;;
  let next_speaker := if str_eqb speaker (lit "Scientist")
                      then lit "Philosopher" else lit "Scientist" in
  ret {| u_topic := None;
         u_messages := Some [new_message];
         u_round_number := Some (round_number state + 1)%Z;
         u_next_speaker := Some next_speaker;
         u_winner := None; u_justification := None; u_summary := None |}.

(** The call as the program makes it.  [AnyMessage] is imported from
    langchain_core.messages, where it is the Union of the message classes
    (graph.py uses it as the item type of [messages]) and not a class: Python
    does not instantiate a Union, the call raises [TypeError]. *)
Definition AnyMessage_call (content name : str) : res Message :=
  Raise TypeError.

Definition agent_node (llm : LLM) (state : GraphState) : M Update :=
  agent_node_with AnyMessage_call llm state.

(** The call as it would be with a message class in the place of
    [AnyMessage]: it returns the message with this content and this name. *)
Definition message_class (content name : str) : res Message :=
  Ok (AnyMessage content name).

Record Verdict := mkVerdict {
  v_summary : str;
  v_winner : str;
  v_justification : str
}.

(** The body of the [try] block of [judge_node]. *)
Definition parse_verdict (result : str) : res Verdict :=
  let? a := split result (lit "SUMMARY:") in
  let? b := index a 1 in
  let? c := split b (lit "WINNER:") in
  let? d := index c 0 in
  let summary := strip d in
  let? a := split result (lit "WINNER:") in
  let? b := index a 1 in
  let? c := split b (lit "JUSTIFICATION:") in
  let? d := index c 0 in
  let winner := strip d in
  let? a := split result (lit "JUSTIFICATION:") in
  let? b := index a 1 in
  let justification := strip b in
  Ok (mkVerdict summary winner justification).

(** The [except IndexError] branch. *)
Definition fallback : Verdict :=
  mkVerdict (lit "The judge failed to provide a structured summary.")
            (lit "No winner declared")
            (lit "The judge's output was malformed.").

(** [try: ... except IndexError: ...]: any other exception propagates. *)
Definition adjudicate (result : str) : res Verdict :=
  match parse_verdict result with
  | Raise IndexError => Ok fallback
  | r => r
  end.

Definition judge_node (llm : LLM) (state : GraphState) : M Update :=
  let topic := topic state in
  let history := format_history (messages state) in
  result <- chain_invoke llm judge_prompt topic history ;;
  v <- lift (adjudicate result) ;;
  ret {| u_topic := None; u_messages := None; u_round_number := None;
         u_next_speaker := None;
         u_winner := Some (v_winner v);
         u_justification := Some (v_justification v);
         u_summary := Some (v_summary v) |}.

(** ** graph.py: router *)

Definition router (state : GraphState) : str :=
  if (round_number state >=? 8)%Z then lit "judge" else lit "agent".

(** ** graph.py: the workflow

    A [StateGraph] as the builder calls of [get_graph] leave it: the node
    functions by name, the entry point, the conditional edges (a path function
    and the map from its answers to node names) and the plain edges. *)

Definition END : str := lit "__end__".

Record StateGraph := mkGraph {
  nodes : list (str * (GraphState -> M Update));
  entry_point : option str;
  branches : list (str * ((GraphState -> str) * list (str * str)));
  edges : list (str * str)
}.

Definition StateGraph_new : StateGraph := mkGraph [] None [] [].

Definition add_node (g : StateGraph) (name : str) (f : GraphState -> M Update) :=
  mkGraph ((name, f) :: nodes g) (entry_point g) (branches g) (edges g).

Definition set_entry_point (g : StateGraph) (name : str) :=
  mkGraph (nodes g) (Some name) (branches g) (edges g).

Definition add_conditional_edges (g : StateGraph) (source : str)
    (path : GraphState -> str) (path_map : list (str * str)) :=
  mkGraph (nodes g) (entry_point g) ((source, (path, path_map)) :: branches g)
          (edges g).

Definition add_edge (g : StateGraph) (source target : str) :=
  mkGraph (nodes g) (entry_point g) (branches g) ((source, target) :: edges g).

(** [get_graph] with the path function of the conditional edge left open. *)
Definition workflow (llm : LLM) (path : GraphState -> str) : StateGraph :=
  let workflow := StateGraph_new in
  let workflow := add_node workflow (lit "agent") (agent_node llm) in
  let workflow := add_node workflow (lit "judge") (judge_node llm) in
  let workflow := set_entry_point workflow (lit "agent") in
  let workflow :=
    add_conditional_edges workflow (lit "agent") path
      [(lit "agent", lit "agent"); (lit "judge", lit "judge")] in
  let workflow := add_edge workflow (lit "judge") END in
  workflow.

Definition get_graph (llm : LLM) : StateGraph := workflow llm router.

(** ** Running the compiled graph *)

(** [d[k]] on a dict given by its items, the newest first. *)
Fixpoint lookup {A} (k : str) (d : list (str * A)) : option A :=
  match d with
  | [] => None
  | (k', v) :: d' => if str_eqb k k' then Some v else lookup k d'
  end.

Definition Event : Type := str * Update.

Inductive Outcome :=
| Finished (final : GraphState)
| Failed (e : exn).

(** The node to run after [node], on the state it left. *)
Definition next_node (g : StateGraph) (node : str) (st : GraphState) : res str :=
  match lookup node (branches g) with
  | Some (path, path_map) =>
    match lookup (path st) path_map with
    | Some target => Ok target
    | None => Raise KeyError
    end
  | None =>
    match lookup node (edges g) with
    | Some target => Ok target
    | None => Ok END
    end
  end.

(** Modelled from the spec: the loop behind
    [app.stream(input, {"recursion_limit": n})], which is LangGraph's and not
    under src/.  As the specification's Orchestrator: run the current node on
    the state, merge its output with [apply_update], yield the event
    [{node: output}], then follow the node's conditional or plain edge;
    reaching [END] ends the run normally.  The ceiling [budget] counts node
    executions: the run is aborted with [GraphRecursionError] at the ceiling,
    that is once [budget] nodes have run, as LangGraph does even when the
    last of them led to [END].  An exception of a node ends the run before
    its event. *)
Fixpoint run_nodes (g : StateGraph) (budget : nat) (node : str)
    (st : GraphState) (calls : nat) : list Event * Outcome :=
  match budget with
  | O => ([], Failed GraphRecursionError)
  | S budget' =>
    match lookup node (nodes g) with
    | None => ([], Failed KeyError)
    | Some f =>
      match f st calls with
      | Raise e => ([], Failed e)
      | Ok (output, calls') =>
        let st' := apply_update st output in
        match next_node g node st' with
        | Raise e => ([(node, output)], Failed e)
        | Ok target =>
          match budget' with
          | O => ([(node, output)], Failed GraphRecursionError)
          | S _ =>
            if str_eqb target END then ([(node, output)], Finished st')
            else
              let (events, outcome) := run_nodes g budget' target st' calls' in
              ((node, output) :: events, outcome)
          end
        end
      end
    end
  end.

Definition stream (g : StateGraph) (input : GraphState) (recursion_limit : nat)
  : list Event * Outcome :=
  match entry_point g with
  | None => ([], Failed ValueError)
  | Some entry => run_nodes g recursion_limit entry input 0
  end.

(** ** main.py *)

Definition initial_state (topic : str) : GraphState :=
  {| topic := topic;
     messages := [];
     round_number := 0;
     next_speaker := lit "Scientist";
     winner := None; justification := None; summary := None |}.

Definition recursion_limit : nat := 15.

(** The [for event in app.stream(...)] loop: the events, and how the
    iteration ended. *)
Definition debate (llm : LLM) (topic : str) : list Event * Outcome :=
  stream (get_graph llm) (initial_state topic) recursion_limit.

(** One node execution as the graph performs it: run the node, merge its
    output. *)
Definition execute (node : GraphState -> M Update) (st : GraphState)
  : M GraphState :=
  output <- node st ;; ret (apply_update st output).

(** [k] consecutive executions of the agent node. *)
Fixpoint turns (llm : LLM) (k : nat) (st : GraphState) : M GraphState :=
  match k with
  | O => ret st
  | S k' => st' <- execute (agent_node llm) st ;; turns llm k' st'
  end.

(** A stub model: the answer to call [n] is [n] times the letter [a]. *)
Definition stub : LLM := fun n _ => repeat 97%N n.

(** ** Notions used to state the properties *)

(** The states a run can be in: the driver's initial state, and what a node
    execution that returns makes of a reachable state, whatever the model has
    answered and whatever the [AnyMessage] call does. *)
Inductive reachable (instantiate : str -> str -> res Message) (llm : LLM)
  : GraphState -> Prop :=
| reach_initial (topic : str) : reachable instantiate llm (initial_state topic)
| reach_agent (st st' : GraphState) (n n' : nat) :
    reachable instantiate llm st ->
    execute (agent_node_with instantiate llm) st n = Ok (st', n') ->
    reachable instantiate llm st'
| reach_judge (st st' : GraphState) (n n' : nat) :
    reachable instantiate llm st ->
    execute (judge_node llm) st n = Ok (st', n') ->
    reachable instantiate llm st'.

(** When the call returns, it returns the message with the content and the
    name it was given. *)
Definition constructs (instantiate : str -> str -> res Message) : Prop :=
  forall c n m, instantiate c n = Ok m -> m = AnyMessage c n.

(** The request the agent node sends in state [st]. *)
Definition agent_request (st : GraphState) : Request :=
  mkRequest (if str_eqb (next_speaker st) (lit "Scientist")
             then scientist_prompt else philosopher_prompt)
            (topic st) (format_history (messages st)).

(** The text the agent node gives to the [AnyMessage] call in state [st]
    when the model is at call [n]: its answer, or the filler when the answer
    repeats an earlier utterance. *)
Definition utterance_text (llm : LLM) (st : GraphState) (n : nat) : str :=
  let response := llm n (agent_request st) in
  if existsb (str_eqb response) (map content (messages st))
  then filler else response.

(** The output of the agent node in state [st] once the call has returned
    the message [m]. *)
Definition agent_output (st : GraphState) (m : Message) : Update :=
  {| u_topic := None;
     u_messages := Some [m];
     u_round_number := Some (round_number st + 1)%Z;
     u_next_speaker := Some (if str_eqb (next_speaker st) (lit "Scientist")
                             then lit "Philosopher" else lit "Scientist");
     u_winner := None; u_justification := None; u_summary := None |}.

(** The output of the judge node for the verdict [v]. *)
Definition judge_output (v : Verdict) : Update :=
  {| u_topic := None; u_messages := None; u_round_number := None;
     u_next_speaker := None;
     u_winner := Some (v_winner v);
     u_justification := Some (v_justification v);
     u_summary := Some (v_summary v) |}.

(** A state [n] turns into a debate that the Scientist opened. *)
Definition in_step (st : GraphState) (n : nat) : Prop :=
  round_number st = Z.of_nat n /\
  next_speaker st = speaker_label n /\
  map name (messages st) = map speaker_label (seq 0 n).

(** [s.split(sep)[0]]: what precedes the first occurrence of [sep]. *)
Definition before (s sep : str) : str :=
  match find s sep with
  | Some i => firstn i s
  | None => s
  end.

(** A history line without its line break. *)
Definition rendered (i : nat) (msg : Message) : str :=
  lit "[Round " ++ str_of_nat (i + 1) ++ lit "] " ++ speaker_label i
      ++ lit ": " ++ content msg.

(** The history lines of [ms], numbered from position [k], each with its
    line break. *)
Definition history_from (k : nat) (ms : list Message) : str :=
  concat (map (fun im => rendered (fst im) (snd im) ++ nl)
              (combine (seq k (length ms)) ms)).

(** The sentinel strings as the specification words them. *)
Definition spec_not_started : str := lit "the debate has not started".

Definition spec_fallback : Verdict :=
  mkVerdict (lit "judge failed to provide a structured summary")
            (lit "no winner declared")
            (lit "judge output was malformed").

(** Any number of node executions that return, whatever the model has
    answered and whatever the [AnyMessage] call does. *)
Inductive steps (instantiate : str -> str -> res Message) (llm : LLM)
  : GraphState -> GraphState -> Prop :=
| steps_none (st : GraphState) : steps instantiate llm st st
| steps_agent (st st' st'' : GraphState) (n n' : nat) :
    steps instantiate llm st st' ->
    execute (agent_node_with instantiate llm) st' n = Ok (st'', n') ->
    steps instantiate llm st st''
| steps_judge (st st' st'' : GraphState) (n n' : nat) :
    steps instantiate llm st st' ->
    execute (judge_node llm) st' n = Ok (st'', n') ->
    steps instantiate llm st st''.

(** [sep] occurs in [s]. *)
Definition occurs (sep s : str) : Prop := exists a b, s = a ++ sep ++ b.

(** [s] neither starts nor ends with white space. *)
Definition no_outer_space (s : str) : Prop :=
  (forall c r, s = c :: r -> isspace c = false) /\
  (forall r c, s = r ++ [c] -> isspace c = false).

(** A text that repeats an earlier text of the transcript is the filler. *)
Definition repeats_are_filler (msgs : list Message) : Prop :=
  forall front m back,
    msgs = front ++ m :: back ->
    In (content m) (map content front) -> content m = filler.

(** * Properties *)

Unset Implicit Arguments.

(** ** The functions on concrete inputs *)

Example split_on_separator :
  split (lit "a, b,, c") (lit ", ") = Ok [lit "a"; lit "b,"; lit "c"].
Proof. reflexivity. Qed.

Example split_without_overlap :
  split (lit "aaa") (lit "aa") = Ok [lit ""; lit "a"].
Proof. reflexivity. Qed.

Example strip_both_ends : strip (9%N :: lit " a b " ++ nl) = lit "a b".
Proof. reflexivity. Qed.

Example str_of_nat_120 : str_of_nat 120 = lit "120".
Proof. reflexivity. Qed.

Example format_history_two :
  format_history [AnyMessage (lit "Data first.") (lit "Scientist");
                  AnyMessage (lit "Meaning first. ") (lit "Philosopher")]
  = lit "[Round 1] Scientist: Data first." ++ nl
    ++ lit "[Round 2] Philosopher: Meaning first.".
Proof. reflexivity. Qed.

Example adjudicate_well_formed :
  adjudicate (lit "SUMMARY: close" ++ nl ++ lit "WINNER: Philosopher" ++ nl
              ++ lit "JUSTIFICATION: sounder ")
  = Ok (mkVerdict (lit "close") (lit "Philosopher") (lit "sounder")).
Proof. reflexivity. Qed.

(** ** Strings *)

Lemma str_eqb_eq (a b : str) : str_eqb a b = true <-> a = b.
Proof.
  revert b; induction a as [|x a IH]; intros [|y b]; simpl;
    try (split; [discriminate | discriminate]); try tauto.
  rewrite andb_true_iff, N.eqb_eq, IH.
  split; [intros [-> ->]; reflexivity | intros H; inversion H; auto].
Qed.

Lemma str_eqb_refl (a : str) : str_eqb a a = true.
Proof. apply str_eqb_eq; reflexivity. Qed.

Lemma existsb_str_eqb (x : str) (l : list str) :
  existsb (str_eqb x) l = true <-> In x l.
Proof.
  rewrite existsb_exists; split.
  - intros (y & Hy & E); apply str_eqb_eq in E; subst; assumption.
  - intros H; exists x; split; [assumption | apply str_eqb_refl].
Qed.

Lemma startswith_iff (s sub : str) :
  startswith s sub = true <-> exists t, s = sub ++ t.
Proof.
  revert s; induction sub as [|p sub IH]; intros s; simpl.
  - split; [intros _; exists s; reflexivity | reflexivity].
  - destruct s as [|c s].
    + split; [discriminate | intros (t & H); discriminate].
    + rewrite andb_true_iff, N.eqb_eq, IH; split.
      * intros (-> & t & ->); exists t; reflexivity.
      * intros (t & H); inversion H; subst; split; [reflexivity | exists t; reflexivity].
Qed.

Lemma startswith_length (s sub : str) :
  startswith s sub = true -> length sub <= length s.
Proof.
  intros H; apply startswith_iff in H; destruct H as (t & ->).
  rewrite length_app; lia.
Qed.

Lemma startswith_nil (sub : str) : sub <> [] -> startswith [] sub = false.
Proof. destruct sub; [congruence | reflexivity]. Qed.

(** [find] returns the first occurrence. *)
Lemma find_Some (s sub : str) (i : nat) :
  find s sub = Some i <->
  startswith (skipn i s) sub = true /\
  (forall j, j < i -> startswith (skipn j s) sub = false) /\ i <= length s.
Proof.
  revert i; induction s as [|c s IH]; intros i.
  - simpl. destruct (startswith [] sub) eqn:E.
    + split.
      * intros H; inversion H; subst; simpl; repeat split; auto; intros; lia.
      * intros (_ & H & Hi); simpl in Hi; f_equal; lia.
    + split; [discriminate|]. intros (H & _ & _).
      rewrite skipn_nil in H; congruence.
  - cbn [find]. destruct (startswith (c :: s) sub) eqn:E.
    + split.
      * intros H; inversion H; subst; simpl; repeat split; auto; intros; lia.
      * intros (_ & H & _). destruct i as [|i]; [reflexivity|].
        specialize (H 0 (Nat.lt_0_succ i)); simpl in H; congruence.
    + destruct (find s sub) as [k|] eqn:F; simpl.
      * destruct (proj1 (IH k) eq_refl) as (H1 & H2 & H3). split.
        -- intros H; inversion H; subst; simpl; repeat split; auto; [|lia].
           intros [|j] Hj; simpl; [assumption | apply H2; lia].
        -- intros (G1 & G2 & G3). destruct i as [|i]; [simpl in G1; congruence|].
           simpl in G1. assert (k = i) as ->; [|reflexivity].
           destruct (Nat.lt_trichotomy i k) as [L|[L|L]]; [|congruence|].
           ++ rewrite (H2 i L) in G1; discriminate.
           ++ specialize (G2 (S k)); simpl in G2; rewrite G2 in H1; [discriminate | lia].
      * split; [discriminate|]. intros (G1 & G2 & G3).
        destruct i as [|i]; [simpl in G1; congruence|]. simpl in G1, G3.
        assert (@None nat = Some i) as X; [|discriminate].
        apply IH; repeat split; [assumption | | lia].
        intros j Hj; apply (G2 (S j)); lia.
Qed.

Lemma find_None (s sub : str) :
  find s sub = None <-> forall j, startswith (skipn j s) sub = false.
Proof.
  induction s as [|c s IH].
  - simpl. destruct (startswith [] sub) eqn:E.
    + split; [discriminate | intros H; specialize (H 0); simpl in H; congruence].
    + split; [intros _ j; rewrite skipn_nil; assumption | reflexivity].
  - cbn [find]. destruct (startswith (c :: s) sub) eqn:E.
    + split; [discriminate | intros H; specialize (H 0); simpl in H; congruence].
    + destruct (find s sub) as [k|] eqn:F; simpl.
      * split; [discriminate|]. intros H.
        assert (Some k = None) as X; [|discriminate].
        apply IH; intros j; apply (H (S j)).
      * split; [|reflexivity]. intros _ [|j]; simpl; [assumption|].
        apply (proj1 IH eq_refl).
Qed.

Lemma find_nil (sub : str) : sub <> [] -> find [] sub = None.
Proof. intros H; simpl; rewrite startswith_nil; auto. Qed.

Lemma contains_false (s sub : str) : contains s sub = false <-> find s sub = None.
Proof. unfold contains; destruct (find s sub); split; congruence. Qed.

(** The first piece and the second piece of a split. *)
Lemma split_pieces_head (k : nat) (s sep : str) :
  sep <> [] -> length s <= k ->
  exists rest, split_pieces k s sep = before s sep :: rest.
Proof.
  intros Hsep Hk; unfold before; destruct k as [|k]; simpl.
  - destruct s; [|simpl in Hk; lia]. rewrite find_nil by assumption. eauto.
  - destruct (find s sep); eauto.
Qed.

Lemma split_index_0 (s sep : str) :
  sep <> [] -> (let? c := split s sep in index c 0) = Ok (before s sep).
Proof.
  intros Hsep; unfold split; destruct sep as [|p sep]; [congruence|].
  destruct (@split_pieces_head (length s) s (p :: sep) Hsep (le_n _)) as (rest & ->).
  reflexivity.
Qed.

Lemma split_index_1 (s sep : str) :
  sep <> [] ->
  (let? a := split s sep in index a 1) =
  match find s sep with
  | Some i => Ok (before (skipn (i + length sep) s) sep)
  | None => Raise IndexError
  end.
Proof.
  intros Hsep; unfold split; destruct sep as [|p sep]; [congruence|].
  cbn [res_bind]. destruct (length s) as [|k] eqn:L.
  - destruct s; [|discriminate]. rewrite find_nil by assumption. reflexivity.
  - cbn [split_pieces]. destruct (find s (p :: sep)) as [i|] eqn:F; [|reflexivity].
    destruct (@split_pieces_head k (skipn (i + length (p :: sep)) s) (p :: sep) Hsep)
      as (rest & ->); [|reflexivity].
    rewrite length_skipn; simpl; lia.
Qed.

Lemma split_index_0_then {B} (s sep : str) (K : str -> res B) :
  sep <> [] ->
  (let? c := split s sep in let? d := index c 0 in K d) = K (before s sep).
Proof.
  intros Hsep.
  transitivity (res_bind (let? c := split s sep in index c 0) K).
  - destruct (split s sep); reflexivity.
  - rewrite split_index_0 by assumption; reflexivity.
Qed.

Lemma split_index_1_then {B} (s sep : str) (K : str -> res B) :
  sep <> [] ->
  (let? a := split s sep in let? b := index a 1 in K b) =
  match find s sep with
  | Some i => K (before (skipn (i + length sep) s) sep)
  | None => Raise IndexError
  end.
Proof.
  intros Hsep.
  transitivity (res_bind (let? a := split s sep in index a 1) K).
  - destruct (split s sep); reflexivity.
  - rewrite split_index_1 by assumption; destruct (find s sep); reflexivity.
Qed.

(** ** The judge's parser *)

(** What the [try] block computes: it fails exactly when a label is absent,
    and only with [IndexError]. *)
Lemma parse_verdict_eq (result : str) :
  parse_verdict result =
  match find result (lit "SUMMARY:"), find result (lit "WINNER:"),
        find result (lit "JUSTIFICATION:") with
  | Some i1, Some i2, Some i3 =>
    Ok (mkVerdict
          (strip (before (before (skipn (i1 + 8) result) (lit "SUMMARY:"))
                         (lit "WINNER:")))
          (strip (before (before (skipn (i2 + 7) result) (lit "WINNER:"))
                         (lit "JUSTIFICATION:")))
          (strip (before (skipn (i3 + 14) result) (lit "JUSTIFICATION:"))))
  | _, _, _ => Raise IndexError
  end.
Proof.
  unfold parse_verdict.
  rewrite split_index_1_then by discriminate.
  destruct (find result (lit "SUMMARY:")) as [i1|]; [|reflexivity].
  rewrite split_index_0_then by discriminate.
  rewrite split_index_1_then by discriminate.
  destruct (find result (lit "WINNER:")) as [i2|]; [|reflexivity].
  rewrite split_index_0_then by discriminate.
  rewrite split_index_1_then by discriminate.
  destruct (find result (lit "JUSTIFICATION:")) as [i3|]; reflexivity.
Qed.

Lemma adjudicate_total (result : str) : exists v, adjudicate result = Ok v.
Proof.
  unfold adjudicate; rewrite parse_verdict_eq.
  destruct (find result (lit "SUMMARY:")), (find result (lit "WINNER:")),
    (find result (lit "JUSTIFICATION:")); eauto.
Qed.

Lemma adjudicate_missing (result : str) :
  contains result (lit "SUMMARY:") = false \/
  contains result (lit "WINNER:") = false \/
  contains result (lit "JUSTIFICATION:") = false ->
  adjudicate result = Ok fallback.
Proof.
  rewrite !contains_false; unfold adjudicate; rewrite parse_verdict_eq.
  intros [H|[H|H]]; rewrite H;
    destruct (find result (lit "SUMMARY:")), (find result (lit "WINNER:"));
    reflexivity.
Qed.

(** ** Occurrences of a label *)

Lemma occurrences_In (s sub : str) (i : nat) :
  In i (occurrences s sub) <->
  i <= length s /\ startswith (skipn i s) sub = true.
Proof.
  unfold occurrences; rewrite filter_In, in_seq; intuition lia.
Qed.

Lemma startswith_skipn_bound (s sub : str) (i : nat) :
  sub <> [] -> startswith (skipn i s) sub = true -> i + length sub <= length s.
Proof.
  intros Hsub H; apply startswith_length in H; rewrite length_skipn in H.
  destruct sub; [congruence|]; simpl in *; lia.
Qed.

Lemma occurs_once (s sub : str) (i : nat) :
  sub <> [] -> occurrences s sub = [i] ->
  startswith (skipn i s) sub = true /\
  forall j, startswith (skipn j s) sub = true -> j = i.
Proof.
  intros Hsub H; split.
  - apply (occurrences_In s sub i); rewrite H; left; reflexivity.
  - intros j Hj.
    assert (In j (occurrences s sub)) as X.
    { apply occurrences_In; split; [|assumption].
      apply startswith_skipn_bound in Hj; [lia | assumption]. }
    rewrite H in X; destruct X as [X|[]]; auto.
Qed.

Section Once.
Variables (s sub : str) (i : nat).
Hypothesis sub_nonempty : sub <> [].
Hypothesis here : startswith (skipn i s) sub = true.
Hypothesis only : forall j, startswith (skipn j s) sub = true -> j = i.

Lemma find_once_from (p : nat) : p <= i -> find (skipn p s) sub = Some (i - p).
Proof.
  intros Hp; apply find_Some; rewrite skipn_skipn, length_skipn.
  replace (i - p + p) with i by lia.
  pose proof (startswith_skipn_bound s sub i sub_nonempty here).
  repeat split; [assumption | | lia].
  intros j Hj; rewrite skipn_skipn.
  destruct (startswith (skipn (j + p) s) sub) eqn:E; [|reflexivity].
  apply only in E; lia.
Qed.

Lemma find_once_past (p : nat) : i < p -> find (skipn p s) sub = None.
Proof.
  intros Hp; apply find_None; intros j; rewrite skipn_skipn.
  destruct (startswith (skipn (j + p) s) sub) eqn:E; [|reflexivity].
  apply only in E; lia.
Qed.

Lemma find_once : find s sub = Some i.
Proof.
  pose proof (find_once_from 0 (Nat.le_0_l i)) as H.
  rewrite Nat.sub_0_r in H; exact H.
Qed.
End Once.

(** Two labels cannot overlap: each ends with its only colon. *)
Lemma summary_then_winner (s : str) (i1 i2 : nat) :
  startswith (skipn i1 s) (lit "SUMMARY:") = true ->
  startswith (skipn i2 s) (lit "WINNER:") = true ->
  i1 < i2 -> i1 + 8 <= i2.
Proof.
  intros H1 H2 L. destruct (le_lt_dec (i1 + 8) i2) as [|G]; [assumption|exfalso].
  apply startswith_iff in H1; destruct H1 as (t & Ht).
  replace i2 with ((i2 - i1) + i1) in H2 by lia.
  rewrite <- skipn_skipn, Ht in H2.
  assert (i2 - i1 < 8) as B by lia. assert (0 < i2 - i1) as P by lia.
  revert H2 B P; generalize (i2 - i1) as d; intros d H2 B P.
  do 8 (destruct d as [|d]; [first [lia | vm_compute in H2; discriminate]|]).
  lia.
Qed.

Lemma winner_then_justification (s : str) (i2 i3 : nat) :
  startswith (skipn i2 s) (lit "WINNER:") = true ->
  startswith (skipn i3 s) (lit "JUSTIFICATION:") = true ->
  i2 < i3 -> i2 + 7 <= i3.
Proof.
  intros H1 H2 L. destruct (le_lt_dec (i2 + 7) i3) as [|G]; [assumption|exfalso].
  apply startswith_iff in H1; destruct H1 as (t & Ht).
  replace i3 with ((i3 - i2) + i2) in H2 by lia.
  rewrite <- skipn_skipn, Ht in H2.
  assert (i3 - i2 < 7) as B by lia. assert (0 < i3 - i2) as P by lia.
  revert H2 B P; generalize (i3 - i2) as d; intros d H2 B P.
  do 7 (destruct d as [|d]; [first [lia | vm_compute in H2; discriminate]|]).
  lia.
Qed.

(** C3 as worded fails: on plain prose the judge falls back, but the fallback
    strings of the code are not the three strings the claim quotes. *)
Lemma fallback_wording_differs :
  contains (lit "plain prose") (lit "SUMMARY:") = false /\
  adjudicate (lit "plain prose") = Ok fallback /\
  adjudicate (lit "plain prose") <> Ok spec_fallback.
Proof. repeat split; vm_compute; discriminate. Qed.

(** C3 (amended): whenever one of the labels [SUMMARY:], [WINNER:],
    [JUSTIFICATION:] is absent from the judge's response, parsing does not
    raise and yields the fallback triple of the code, "The judge failed to
    provide a structured summary.", "No winner declared", "The judge's output
    was malformed."; the judge node then returns exactly these three fields. *)
Theorem judge_falls_back (llm : LLM) (state : GraphState) (n : nat) :
  let result :=
    llm n (mkRequest judge_prompt (topic state)
                     (format_history (messages state))) in
  contains result (lit "SUMMARY:") = false \/
  contains result (lit "WINNER:") = false \/
  contains result (lit "JUSTIFICATION:") = false ->
  adjudicate result = Ok fallback /\
  judge_node llm state n =
    Ok ({| u_topic := None; u_messages := None; u_round_number := None;
           u_next_speaker := None;
           u_winner := Some (lit "No winner declared");
           u_justification := Some (lit "The judge's output was malformed.");
           u_summary :=
             Some (lit "The judge failed to provide a structured summary.") |},
        S n).
Proof.
  intros result H; pose proof (adjudicate_missing result H) as A.
  split; [assumption|].
  unfold judge_node, bind, chain_invoke, lift; fold result; rewrite A.
  reflexivity.
Qed.

Lemma judge_falls_back_witness :
  judge_node (fun _ _ => lit "plain prose") (initial_state (lit "t")) 0 =
    Ok ({| u_topic := None; u_messages := None; u_round_number := None;
           u_next_speaker := None;
           u_winner := Some (lit "No winner declared");
           u_justification := Some (lit "The judge's output was malformed.");
           u_summary :=
             Some (lit "The judge failed to provide a structured summary.") |},
        1).
Proof.
  apply (judge_falls_back (fun _ _ => lit "plain prose") (initial_state (lit "t")) 0).
  left; reflexivity.
Defined.

(** C4 as worded fails when a label is repeated: the response below is laid
    out as the three labels with texts between them (in two ways), and in
    neither way is the parsed triple the trimmed texts.  The justification
    stops at the second [JUSTIFICATION:]. *)
Lemma repeated_label_breaks_sections :
  let result := lit "SUMMARY: S" ++ nl ++ lit "WINNER: W" ++ nl
                ++ lit "JUSTIFICATION: J JUSTIFICATION: K" in
  let s := lit " S" ++ nl in
  let w := lit " W" ++ nl in
  let j := lit " J JUSTIFICATION: K" in
  let w' := lit " W" ++ nl ++ lit "JUSTIFICATION: J " in
  let j' := lit " K" in
  result = lit "SUMMARY:" ++ s ++ lit "WINNER:" ++ w ++ lit "JUSTIFICATION:" ++ j /\
  result = lit "SUMMARY:" ++ s ++ lit "WINNER:" ++ w' ++ lit "JUSTIFICATION:" ++ j' /\
  adjudicate result = Ok (mkVerdict (lit "S") (lit "W") (lit "J")) /\
  adjudicate result <> Ok (mkVerdict (strip s) (strip w) (strip j)) /\
  adjudicate result <> Ok (mkVerdict (strip s) (strip w') (strip j')).
Proof. repeat split; vm_compute; discriminate. Qed.

(** C4 (amended): for every judge response in which each of the three labels
    occurs exactly once, [SUMMARY:] before [WINNER:] before [JUSTIFICATION:],
    the parsed summary is the text between [SUMMARY:] and [WINNER:], the
    parsed winner the text between [WINNER:] and [JUSTIFICATION:], the parsed
    justification the text after [JUSTIFICATION:], each trimmed of surrounding
    white space; in particular the response
    "SUMMARY: S\nWINNER: W\nJUSTIFICATION: J" gives S, W and J. *)
Theorem judge_parses_sections :
  (forall (result : str) (i1 i2 i3 : nat),
      occurrences result (lit "SUMMARY:") = [i1] ->
      occurrences result (lit "WINNER:") = [i2] ->
      occurrences result (lit "JUSTIFICATION:") = [i3] ->
      i1 < i2 -> i2 < i3 ->
      adjudicate result =
        Ok (mkVerdict (strip (slice result (i1 + 8) i2))
                      (strip (slice result (i2 + 7) i3))
                      (strip (skipn (i3 + 14) result)))) /\
  adjudicate (lit "SUMMARY: S" ++ nl ++ lit "WINNER: W" ++ nl
              ++ lit "JUSTIFICATION: J")
  = Ok (mkVerdict (lit "S") (lit "W") (lit "J")).
Proof.
  split; [|reflexivity].
  intros result i1 i2 i3 O1 O2 O3 L12 L23.
  apply occurs_once in O1; [|discriminate]. destruct O1 as (A1 & B1).
  apply occurs_once in O2; [|discriminate]. destruct O2 as (A2 & B2).
  apply occurs_once in O3; [|discriminate]. destruct O3 as (A3 & B3).
  pose proof (summary_then_winner result i1 i2 A1 A2 L12) as D12.
  pose proof (winner_then_justification result i2 i3 A2 A3 L23) as D23.
  unfold adjudicate; rewrite parse_verdict_eq.
  assert (lit "SUMMARY:" <> []) as N1 by discriminate.
  assert (lit "WINNER:" <> []) as N2 by discriminate.
  assert (lit "JUSTIFICATION:" <> []) as N3 by discriminate.
  rewrite (find_once _ _ _ N1 A1 B1), (find_once _ _ _ N2 A2 B2),
    (find_once _ _ _ N3 A3 B3).
  unfold before.
  rewrite (find_once_past _ _ _ B1 (i1 + 8)) by lia.
  rewrite (find_once_past _ _ _ B2 (i2 + 7)) by lia.
  rewrite (find_once_past _ _ _ B3 (i3 + 14)) by lia.
  rewrite (find_once_from _ _ _ N2 A2 B2 (i1 + 8)) by lia.
  rewrite (find_once_from _ _ _ N3 A3 B3 (i2 + 7)) by lia.
  reflexivity.
Qed.

Lemma judge_parses_sections_witness :
  adjudicate (lit "SUMMARY: good" ++ nl ++ lit "WINNER: Scientist" ++ nl
              ++ lit "JUSTIFICATION: data ")
  = Ok (mkVerdict (lit "good") (lit "Scientist") (lit "data")).
Proof.
  exact (proj1 judge_parses_sections
           (lit "SUMMARY: good" ++ nl ++ lit "WINNER: Scientist" ++ nl
            ++ lit "JUSTIFICATION: data ")
           0 14 32 eq_refl eq_refl eq_refl ltac:(lia) ltac:(lia)).
Defined.

(** ** Trimming and splitting lines *)

Lemma lstrip_app_nonspace (x y : str) (c : char) :
  isspace c = false -> lstrip (x ++ c :: y) = lstrip x ++ c :: y.
Proof.
  intros Hc; induction x as [|a x IH]; simpl.
  - rewrite Hc; reflexivity.
  - destruct (isspace a); [assumption | reflexivity].
Qed.

Lemma lstrip_app (x y : str) : lstrip x <> [] -> lstrip (x ++ y) = lstrip x ++ y.
Proof.
  induction x as [|a x IH]; simpl; [congruence|].
  destruct (isspace a); [assumption | reflexivity].
Qed.

Lemma lstrip_suffix (x : str) : exists t, x = t ++ lstrip x.
Proof.
  induction x as [|a x (t & IH)]; simpl; [exists []; reflexivity|].
  destruct (isspace a); [|exists []; reflexivity].
  exists (a :: t); simpl; congruence.
Qed.

Lemma rstrip_prefix (x : str) : exists t, x = rstrip x ++ t.
Proof.
  destruct (lstrip_suffix (rev x)) as (t & H); exists (rev t).
  unfold rstrip; rewrite <- rev_app_distr, <- H, rev_involutive; reflexivity.
Qed.

Lemma rstrip_cons_nonspace (c : char) (l : str) :
  isspace c = false -> exists r, rstrip (c :: l) = c :: r.
Proof.
  intros Hc; unfold rstrip; simpl rev.
  rewrite lstrip_app_nonspace by assumption.
  rewrite rev_app_distr; simpl; eauto.
Qed.

Lemma rstrip_app (a b : str) : rstrip b <> [] -> rstrip (a ++ b) = a ++ rstrip b.
Proof.
  unfold rstrip; intros H; rewrite rev_app_distr, lstrip_app.
  - rewrite rev_app_distr, rev_involutive; reflexivity.
  - intros E; rewrite E in H; apply H; reflexivity.
Qed.

Lemma rstrip_snoc_space (b : str) (c : char) :
  isspace c = true -> rstrip (b ++ [c]) = rstrip b.
Proof.
  intros Hc; unfold rstrip; rewrite rev_app_distr; simpl; rewrite Hc; reflexivity.
Qed.

(** [length s] rounds are enough for [split_pieces]. *)
Lemma split_pieces_enough (sep : str) :
  sep <> [] ->
  forall k k' s, length s <= k -> length s <= k' ->
                 split_pieces k s sep = split_pieces k' s sep.
Proof.
  intros Hsep; induction k as [|k IH]; intros k' s Hk Hk'.
  - destruct s; [|simpl in Hk; lia].
    destruct k'; simpl; [reflexivity|]. rewrite startswith_nil by assumption.
    reflexivity.
  - destruct k' as [|k'].
    + destruct s; [|simpl in Hk'; lia]. simpl.
      rewrite startswith_nil by assumption. reflexivity.
    + simpl. destruct (find s sep) as [i|] eqn:F; [|reflexivity].
      f_equal. apply find_Some in F; destruct F as (F & _ & _).
      apply startswith_skipn_bound in F; [|assumption].
      destruct sep; [congruence|]; simpl in F.
      apply IH; rewrite length_skipn; simpl; lia.
Qed.

Lemma split_pieces_unfold (s sep : str) :
  sep <> [] ->
  split_pieces (length s) s sep =
  match find s sep with
  | None => [s]
  | Some i =>
    let rest := skipn (i + length sep) s in
    firstn i s :: split_pieces (length rest) rest sep
  end.
Proof.
  intros Hsep. destruct (length s) as [|k] eqn:L.
  - destruct s; [|discriminate]. rewrite find_nil by assumption; reflexivity.
  - simpl. destruct (find s sep) as [i|] eqn:F; [|reflexivity].
    f_equal. apply find_Some in F; destruct F as (F & _ & _).
    apply startswith_skipn_bound in F; [|assumption].
    destruct sep; [congruence|]; simpl in F.
    apply split_pieces_enough; [discriminate | | lia].
    rewrite length_skipn; simpl; lia.
Qed.

Lemma find_line_break (a b : str) :
  ~ In 10%N a -> find (a ++ nl ++ b) nl = Some (length a).
Proof.
  induction a as [|c a IH]; intros H; [reflexivity|].
  cbn [app find startswith nl].
  destruct (N.eqb_spec c 10) as [->|_]; [exfalso; apply H; left; reflexivity|].
  simpl. change (10%N :: b) with (nl ++ b). rewrite IH; [reflexivity|].
  intros G; apply H; right; assumption.
Qed.

Lemma find_no_line_break (a : str) : ~ In 10%N a -> find a nl = None.
Proof.
  induction a as [|c a IH]; intros H; [reflexivity|].
  cbn [find startswith nl].
  destruct (N.eqb_spec c 10) as [->|_]; [exfalso; apply H; left; reflexivity|].
  simpl. rewrite IH; [reflexivity|]. intros G; apply H; right; assumption.
Qed.

Lemma digits_range (d : Decimal.uint) (c : char) :
  In c (digits d) -> (48 <= c <= 57)%N.
Proof.
  induction d; simpl; intros H; try contradiction;
    (destruct H as [<-|H]; [lia | auto]).
Qed.

Lemma rendered_no_line_break (i : nat) (m : Message) :
  ~ In 10%N (content m) -> ~ In 10%N (rendered i m).
Proof.
  intros H G; unfold rendered in G.
  repeat (apply in_app_or in G; destruct G as [G|G]).
  - vm_compute in G; intuition discriminate.
  - apply digits_range in G; lia.
  - vm_compute in G; intuition discriminate.
  - unfold speaker_label in G; destruct (Nat.eqb (i mod 2) 0);
      vm_compute in G; intuition discriminate.
  - vm_compute in G; intuition discriminate.
  - contradiction.
Qed.

Lemma rstrip_no_line_break (a : str) : ~ In 10%N a -> ~ In 10%N (rstrip a).
Proof.
  intros H G; destruct (rstrip_prefix a) as (t & E); apply H.
  rewrite E; apply in_or_app; left; assumption.
Qed.

(** ** The history formatter *)

Lemma fold_left_append {A} (f : A -> str) (l : list A) (acc : str) :
  fold_left (fun h x => h ++ f x) l acc = acc ++ concat (map f l).
Proof.
  revert acc; induction l as [|x l IH]; intros acc; simpl.
  - rewrite app_nil_r; reflexivity.
  - rewrite IH, app_assoc; reflexivity.
Qed.

Lemma history_line_rendered (i : nat) (m : Message) :
  history_line i m = rendered i m ++ nl.
Proof. unfold history_line, rendered; rewrite <- !app_assoc; reflexivity. Qed.

Lemma history_from_cons (k : nat) (m : Message) (ms : list Message) :
  history_from k (m :: ms) = rendered k m ++ nl ++ history_from (S k) ms.
Proof. unfold history_from; simpl; rewrite <- app_assoc; reflexivity. Qed.

Lemma history_from_bracket (k : nat) (m : Message) (ms : list Message) :
  exists r, history_from k (m :: ms) = 91%N :: r.
Proof. rewrite history_from_cons; unfold rendered; simpl; eauto. Qed.

Lemma format_history_eq (ms : list Message) :
  ms <> [] -> format_history ms = rstrip (history_from 0 ms).
Proof.
  destruct ms as [|m ms]; [congruence|intros _].
  unfold format_history; rewrite fold_left_append; cbn [app].
  replace (concat (map (fun im => history_line (fst im) (snd im))
                       (enumerate (m :: ms))))
    with (history_from 0 (m :: ms)).
  - destruct (history_from_bracket 0 m ms) as (r & ->); reflexivity.
  - unfold history_from, enumerate; f_equal; apply map_ext.
    intros im; symmetry; apply history_line_rendered.
Qed.

Lemma rstrip_history_from (k : nat) (m : Message) (ms : list Message) :
  rstrip (history_from k (m :: ms)) =
  match ms with
  | [] => rstrip (rendered k m)
  | _ :: _ => rendered k m ++ nl ++ rstrip (history_from (S k) ms)
  end.
Proof.
  rewrite history_from_cons; destruct ms as [|m2 ms].
  - change (history_from (S k) []) with (@nil char); rewrite app_nil_r.
    apply rstrip_snoc_space; reflexivity.
  - rewrite app_assoc, rstrip_app; [rewrite <- app_assoc; reflexivity|].
    destruct (history_from_bracket (S k) m2 ms) as (r & ->).
    destruct (rstrip_cons_nonspace 91%N r eq_refl) as (r' & E).
    unfold char in *; rewrite E; discriminate.
Qed.

Lemma lines_of_history (ms : list Message) :
  forall (k : nat) (m : Message),
    (forall x, In x (m :: ms) -> ~ In 10%N (content x)) ->
    let text := rstrip (history_from k (m :: ms)) in
    exists lines,
      split_pieces (length text) text nl = lines /\
      length lines = S (length ms) /\
      forall i x, nth_error (m :: ms) i = Some x ->
                  nth_error lines i =
                  Some (if Nat.eqb i (length ms) then rstrip (rendered (k + i) x)
                        else rendered (k + i) x).
Proof.
  induction ms as [|m2 ms IH]; intros k m H text; subst text;
    rewrite rstrip_history_from, split_pieces_unfold by discriminate.
  - rewrite find_no_line_break.
    2:{ apply rstrip_no_line_break, rendered_no_line_break, H; left; reflexivity. }
    eexists; repeat split.
    intros [|i] x Hx; simpl in Hx.
    + inversion Hx; subst; rewrite Nat.add_0_r; reflexivity.
    + destruct i; discriminate.
  - rewrite find_line_break.
    2:{ apply rendered_no_line_break, H; left; reflexivity. }
    cbv zeta. rewrite firstn_app, firstn_all, Nat.sub_diag, app_nil_r.
    replace (skipn (length (rendered k m) + length nl)
                   (rendered k m ++ nl ++ rstrip (history_from (S k) (m2 :: ms))))
      with (rstrip (history_from (S k) (m2 :: ms))).
    2:{ rewrite app_assoc, skipn_app, <- length_app, skipn_all, Nat.sub_diag.
        reflexivity. }
    destruct (IH (S k) m2) as (lines & E & L & N).
    { intros x Hx; apply H; right; assumption. }
    rewrite E. eexists; split; [reflexivity|]; split; [simpl; congruence|].
    intros [|i] x Hx; simpl in Hx.
    + inversion Hx; subst; rewrite Nat.add_0_r; reflexivity.
    + simpl. rewrite (N i x Hx). replace (k + S i) with (S k + i) by lia.
      reflexivity.
Qed.

Lemma mod2_even (n : nat) : Nat.eqb (n mod 2) 0 = Nat.even n.
Proof.
  assert (Nat.eqb (n mod 2) 0 = Nat.even n /\
          Nat.eqb (S n mod 2) 0 = Nat.even (S n)) as [H _]; [|exact H].
  induction n as [|n [IH1 IH2]]; [split; reflexivity|].
  split; [assumption|].
  replace (S (S n)) with (n + 1 * 2) by lia.
  rewrite Nat.Div0.mod_add, IH1, Nat.add_comm; reflexivity.
Qed.

Lemma speaker_label_even (i : nat) :
  speaker_label i = if Nat.even i then lit "Scientist" else lit "Philosopher".
Proof. unfold speaker_label; rewrite mod2_even; reflexivity. Qed.

(** C7 as worded fails twice: the text returned for the empty transcript is
    not the one the claim quotes, and an utterance whose text has a line break
    gives more lines than utterances. *)
Lemma history_wording_and_line_count :
  format_history [] <> spec_not_started /\
  (let transcript := [AnyMessage (lit "first" ++ nl ++ lit "second")
                                 (lit "Scientist")] in
   split (format_history transcript) nl =
     Ok [lit "[Round 1] Scientist: first"; lit "second"]).
Proof. split; [vm_compute; discriminate | reflexivity]. Qed.

(** C7 (amended): the history formatter is total.  For the empty transcript
    it returns "The debate has not started yet." (not an empty string).  For a
    non-empty transcript it renders utterance [i] (counted from 1) as
    "[Round i] Label: text" followed by a line break, in transcript order,
    Label being Scientist iff [i] is odd, and trims white space at both ends of
    the whole text, which only shortens the end of the last line.  When no
    utterance text contains a line break, the result has exactly as many lines
    as the transcript has utterances, line [i] being the rendering of
    utterance [i] (the last one trimmed at its end). *)
Theorem format_history_lines :
  format_history [] = lit "The debate has not started yet." /\
  (forall i, speaker_label i =
             if Nat.odd (i + 1) then lit "Scientist" else lit "Philosopher") /\
  (forall msgs, msgs <> [] ->
     format_history msgs =
     rstrip (concat (map (fun im => rendered (fst im) (snd im) ++ nl)
                         (enumerate msgs)))) /\
  (forall msgs, msgs <> [] ->
     (forall m, In m msgs -> ~ In 10%N (content m)) ->
     exists lines,
       split (format_history msgs) nl = Ok lines /\
       length lines = length msgs /\
       forall i m, nth_error msgs i = Some m ->
                   nth_error lines i =
                   Some (if Nat.eqb (S i) (length msgs)
                         then rstrip (rendered i m) else rendered i m)).
Proof.
  split; [reflexivity|]. split; [|split].
  - intros i; rewrite Nat.add_1_r, Nat.odd_succ; apply speaker_label_even.
  - intros msgs H; apply (format_history_eq msgs H).
  - intros [|m ms] H NL; [congruence|].
    rewrite format_history_eq by assumption.
    destruct (lines_of_history ms 0 m NL) as (lines & E & L & N).
    exists lines; unfold split, nl; fold nl; rewrite E.
    repeat split; [assumption|]. intros i x Hx; apply (N i x Hx).
Qed.

Lemma format_history_lines_witness :
  exists lines,
    split (format_history [AnyMessage (lit "facts ") (lit "Scientist");
                           AnyMessage (lit "ethics ") (lit "Philosopher")]) nl
    = Ok lines /\ length lines = 2.
Proof.
  destruct (proj2 (proj2 (proj2 format_history_lines))
              [AnyMessage (lit "facts ") (lit "Scientist");
               AnyMessage (lit "ethics ") (lit "Philosopher")])
    as (lines & E & L & _).
  - discriminate.
  - intros m [<-|[<-|[]]]; vm_compute; intuition discriminate.
  - exists lines; split; assumption.
Defined.

(** ** The nodes *)

(** What an execution of the agent node amounts to. *)
Lemma execute_agent_with (instantiate : str -> str -> res Message) (llm : LLM)
    (st : GraphState) (n : nat) :
  execute (agent_node_with instantiate llm) st n =
  match instantiate (utterance_text llm st n) (next_speaker st) with
  | Ok m => Ok (apply_update st (agent_output st m), S n)
  | Raise e => Raise e
  end.
Proof.
  unfold execute, agent_node_with, bind, chain_invoke, lift, utterance_text,
    agent_request.
  destruct (instantiate _ _); reflexivity.
Qed.

Lemma execute_agent_returns (instantiate : str -> str -> res Message)
    (llm : LLM) (st st' : GraphState) (n n' : nat) :
  execute (agent_node_with instantiate llm) st n = Ok (st', n') ->
  exists m,
    instantiate (utterance_text llm st n) (next_speaker st) = Ok m /\
    st' = apply_update st (agent_output st m) /\ n' = S n.
Proof.
  rewrite execute_agent_with.
  destruct (instantiate _ _) as [m|e]; [|discriminate].
  intros H; inversion H; subst; exists m; repeat split.
Qed.

Lemma agent_node_raises (llm : LLM) (st : GraphState) (n : nat) :
  agent_node llm st n = Raise TypeError.
Proof. reflexivity. Qed.

Lemma judge_node_eq (llm : LLM) (st : GraphState) (n : nat) :
  exists v, judge_node llm st n = Ok (judge_output v, S n).
Proof.
  unfold judge_node, bind, chain_invoke, lift.
  destruct (adjudicate_total
              (llm n (mkRequest judge_prompt (topic st)
                                (format_history (messages st))))) as (v & ->).
  exists v; reflexivity.
Qed.

Lemma execute_judge (llm : LLM) (st : GraphState) (n : nat) :
  exists v, execute (judge_node llm) st n
            = Ok (apply_update st (judge_output v), S n).
Proof.
  destruct (judge_node_eq llm st n) as (v & E); exists v.
  unfold execute, bind; rewrite E; reflexivity.
Qed.

Lemma router_agent (st : GraphState) :
  (round_number st < 8)%Z -> router st = lit "agent".
Proof.
  intros H; unfold router.
  destruct (Z.geb_spec (round_number st) 8); [lia | reflexivity].
Qed.

Lemma router_judge (st : GraphState) :
  (8 <= round_number st)%Z -> router st = lit "judge".
Proof.
  intros H; unfold router.
  destruct (Z.geb_spec (round_number st) 8); [reflexivity | lia].
Qed.

(** C2: the router is a total function of [round_number] alone: it answers
    "agent" (continue) for every round number from 0 to 7 and "judge"
    (adjudicate) for every round number from 8 on; the conditional edge of the
    graph sends the run to the node the router names. *)
Theorem router_threshold (st : GraphState) :
  ((0 <= round_number st <= 7)%Z -> router st = lit "agent") /\
  ((8 <= round_number st)%Z -> router st = lit "judge") /\
  (forall st', round_number st' = round_number st -> router st' = router st) /\
  (forall llm, next_node (get_graph llm) (lit "agent") st = Ok (router st)).
Proof.
  repeat split.
  - intros H; apply router_agent; lia.
  - apply router_judge.
  - intros st' E; unfold router; rewrite E; reflexivity.
  - intros llm; change (next_node (get_graph llm) (lit "agent") st)
      with (match lookup (router st)
                         [(lit "agent", lit "agent"); (lit "judge", lit "judge")]
            with Some target => Ok target | None => Raise KeyError end).
    unfold router; destruct (round_number st >=? 8)%Z; reflexivity.
Qed.

Lemma router_threshold_witness :
  router (initial_state (lit "t")) = lit "agent" /\
  router (mkState (lit "t") [] 8 (lit "Scientist") None None None) = lit "judge".
Proof.
  split.
  - apply (proj1 (router_threshold (initial_state (lit "t")))); simpl; lia.
  - apply (proj1 (proj2 (router_threshold
                           (mkState (lit "t") [] 8 (lit "Scientist") None None None))));
      simpl; lia.
Defined.

(** C10: the judge node returns only [summary], [winner] and [justification];
    merging its output leaves [topic], [messages], [round_number] and
    [next_speaker] as they were. *)
Theorem judge_frame (llm : LLM) (st : GraphState) (n : nat) :
  exists output,
    judge_node llm st n = Ok (output, S n) /\
    u_topic output = None /\ u_messages output = None /\
    u_round_number output = None /\ u_next_speaker output = None /\
    topic (apply_update st output) = topic st /\
    messages (apply_update st output) = messages st /\
    round_number (apply_update st output) = round_number st /\
    next_speaker (apply_update st output) = next_speaker st.
Proof.
  destruct (judge_node_eq llm st n) as (v & E).
  exists (judge_output v); repeat split; assumption.
Qed.

(** ** Turn taking *)

(** C5 (the code fails it): the claim wants one execution of the agent node
    to return a state with one more utterance, [round_number] plus 1 and the
    other persona as next speaker.  In the code the execution never returns:
    in every state, whatever the model answers, the [AnyMessage] call raises
    [TypeError] after the model has answered, so no message is appended, and
    any positive number of consecutive turns raises at the first one. *)
Theorem agent_node_raises_type_error (llm : LLM) (st : GraphState) (n : nat) :
  agent_node llm st n = Raise TypeError /\
  execute (agent_node llm) st n = Raise TypeError /\
  forall k, turns llm (S k) st n = Raise TypeError.
Proof. repeat split. Qed.

(** C6 (the code fails it): the claim wants the filler sentence appended when
    the model's answer equals the text of an earlier utterance.  In the code
    the repetition test is followed by the [AnyMessage] call, which raises
    [TypeError]: the execution returns no state, so neither the filler nor
    anything else is appended. *)
Theorem repeated_answer_raises (llm : LLM) (st : GraphState) (n : nat) :
  In (llm n (agent_request st)) (map content (messages st)) ->
  utterance_text llm st n = filler /\
  execute (agent_node llm) st n = Raise TypeError.
Proof.
  intros H; split; [|reflexivity].
  unfold utterance_text; rewrite (proj2 (existsb_str_eqb _ _) H); reflexivity.
Qed.

Lemma repeated_answer_raises_witness :
  execute (agent_node (fun _ _ => lit "again"))
          (mkState (lit "t") [AnyMessage (lit "again") (lit "Scientist")] 1
                   (lit "Philosopher") None None None) 1
  = Raise TypeError.
Proof.
  apply (repeated_answer_raises (fun _ _ => lit "again")
           (mkState (lit "t") [AnyMessage (lit "again") (lit "Scientist")] 1
                    (lit "Philosopher") None None None) 1).
  left; reflexivity.
Defined.

(** C1 (the code fails it): the claim wants eight utterances and then one
    execution of the judge node.  In the code the run from the initial state
    ends at the first execution of the agent node, whose [AnyMessage] call
    raises [TypeError]: no event is produced and the judge node never runs. *)
Theorem debate_stops_at_first_turn (llm : LLM) (topic0 : str) :
  debate llm topic0 = ([], Failed TypeError).
Proof. reflexivity. Qed.

(** C9 (the code fails it): the claim wants a run whose router always answers
    "agent" to be aborted at the ceiling with the failure kept for it.  In the
    code such a run ends at the first execution of the agent node with
    [TypeError], which is not [GraphRecursionError]: the ceiling is never
    reached. *)
Theorem runaway_stops_at_first_turn (llm : LLM) (path : GraphState -> str)
    (topic0 : str) :
  (forall st, path st = lit "agent") ->
  stream (workflow llm path) (initial_state topic0) recursion_limit
  = ([], Failed TypeError) /\
  Failed TypeError <> Failed GraphRecursionError.
Proof. intros _; split; [reflexivity | discriminate]. Qed.

Lemma runaway_stops_at_first_turn_witness :
  stream (workflow stub (fun _ => lit "agent")) (initial_state (lit "t"))
         recursion_limit
  = ([], Failed TypeError).
Proof.
  apply (proj1 (runaway_stops_at_first_turn stub (fun _ => lit "agent") (lit "t")
                  (fun _ => eq_refl))).
Defined.

(** ** Invariants of the node executions *)

Lemma speaker_label_next (n : nat) :
  (if str_eqb (speaker_label n) (lit "Scientist")
   then lit "Philosopher" else lit "Scientist") = speaker_label (S n).
Proof.
  rewrite !speaker_label_even, Nat.even_succ, <- Nat.negb_even.
  destruct (Nat.even n); reflexivity.
Qed.

Lemma initial_in_step (topic : str) : in_step (initial_state topic) 0.
Proof. repeat split. Qed.

Lemma turn_in_step (st : GraphState) (m : Message) (k : nat) :
  in_step st k -> name m = next_speaker st ->
  in_step (apply_update st (agent_output st m)) (S k).
Proof.
  intros (R & S & N) Hm; repeat split;
    cbn [apply_update agent_output round_number next_speaker messages
         u_round_number u_next_speaker u_messages overwrite].
  - rewrite R; lia.
  - rewrite S; apply speaker_label_next.
  - rewrite seq_S, !map_app, N; cbn [map app]; rewrite Hm, S; reflexivity.
Qed.

(** C8: in every state reachable from the initial state by node executions,
    [round_number] is the length of the transcript, and each node execution
    that returns preserves this equality; this holds whatever the
    [AnyMessage] call does, so for the program, where it raises, and for one
    where it returns a message. *)
Theorem round_number_counts_utterances
    (instantiate : str -> str -> res Message) (llm : LLM) :
  (forall st, reachable instantiate llm st ->
              round_number st = Z.of_nat (length (messages st))) /\
  (forall node st n st' n',
      node = agent_node_with instantiate llm \/ node = judge_node llm ->
      round_number st = Z.of_nat (length (messages st)) ->
      execute node st n = Ok (st', n') ->
      round_number st' = Z.of_nat (length (messages st'))).
Proof.
  assert (forall node st n st' n',
             node = agent_node_with instantiate llm \/ node = judge_node llm ->
             round_number st = Z.of_nat (length (messages st)) ->
             execute node st n = Ok (st', n') ->
             round_number st' = Z.of_nat (length (messages st'))) as step.
  { intros node st n st' n' [->| ->] I E.
    - apply execute_agent_returns in E; destruct E as (m & _ & -> & _).
      cbn [apply_update agent_output messages u_messages round_number
           u_round_number overwrite].
      rewrite length_app, I; simpl; lia.
    - destruct (execute_judge llm st n) as (v & E'); rewrite E' in E.
      inversion E; subst; exact I. }
  split; [|exact step].
  induction 1 as [topic | st st' n n' _ IH E | st st' n n' _ IH E].
  - reflexivity.
  - apply (step _ st n st' n' (or_introl eq_refl) IH E).
  - apply (step _ st n st' n' (or_intror eq_refl) IH E).
Qed.

Lemma round_number_counts_utterances_witness :
  round_number
    (apply_update (initial_state (lit "t"))
                  (agent_output (initial_state (lit "t"))
                                (AnyMessage (lit "claim") (lit "Scientist"))))
  = 1%Z /\
  round_number
    (apply_update (initial_state (lit "t")) (judge_output fallback)) = 0%Z.
Proof.
  split.
  - apply (proj1 (round_number_counts_utterances message_class
                    (fun _ _ => lit "claim"))).
    apply (@reach_agent message_class (fun _ _ => lit "claim")
             (initial_state (lit "t")) _ 0 1
             (reach_initial message_class (fun _ _ => lit "claim") (lit "t"))).
    reflexivity.
  - apply (proj1 (round_number_counts_utterances AnyMessage_call
                    (fun _ _ => lit "claim"))).
    apply (@reach_judge AnyMessage_call (fun _ _ => lit "claim")
             (initial_state (lit "t")) _ 0 1
             (reach_initial AnyMessage_call (fun _ _ => lit "claim") (lit "t"))).
    reflexivity.
Defined.


(** * Further properties *)

(** ** Occurrence and trimming *)

Lemma startswith_skipn_occurs (s sep : str) (i : nat) :
  startswith (skipn i s) sep = true -> occurs sep s.
Proof.
  intros H; apply startswith_iff in H; destruct H as (t & H).
  exists (firstn i s), t; rewrite <- H; symmetry; apply firstn_skipn.
Qed.

Lemma occurs_startswith (a b sep : str) :
  startswith (skipn (length a) (a ++ sep ++ b)) sep = true.
Proof.
  rewrite skipn_app, skipn_all, Nat.sub_diag; simpl.
  apply startswith_iff; exists b; reflexivity.
Qed.

Lemma contains_occurs (s sep : str) : contains s sep = true <-> occurs sep s.
Proof.
  unfold contains; split.
  - destruct (find s sep) as [i|] eqn:F; [intros _ | discriminate].
    apply find_Some in F; destruct F as (F & _).
    apply (startswith_skipn_occurs s sep i F).
  - intros (a & b & ->). destruct (find (a ++ sep ++ b) sep) eqn:F; [reflexivity|].
    pose proof (occurs_startswith a b sep) as G.
    rewrite (proj1 (find_None _ _) F (length a)) in G; discriminate.
Qed.

Lemma occurs_infix (sep x a b : str) : occurs sep x -> occurs sep (a ++ x ++ b).
Proof.
  intros (u & v & ->); exists (a ++ u), (v ++ b).
  rewrite <- !app_assoc; reflexivity.
Qed.

Lemma strip_infix (s : str) : exists a b, s = a ++ strip s ++ b.
Proof.
  destruct (lstrip_suffix s) as (a & Ha).
  destruct (rstrip_prefix (lstrip s)) as (b & Hb).
  exists a, b; unfold strip; rewrite <- Hb; exact Ha.
Qed.

Lemma not_occurs_strip (sep s : str) : ~ occurs sep s -> ~ occurs sep (strip s).
Proof.
  intros H G; apply H; destruct (strip_infix s) as (a & b & E).
  rewrite E; apply occurs_infix; exact G.
Qed.

Lemma not_occurs_firstn (sep s : str) (i : nat) :
  ~ occurs sep s -> ~ occurs sep (firstn i s).
Proof.
  intros H G; apply H. rewrite <- (firstn_skipn i s).
  apply (occurs_infix sep (firstn i s) [] (skipn i s) G).
Qed.

(** What precedes the first occurrence of [sep] has no occurrence of it. *)
Lemma before_not_occurs (s sep : str) : sep <> [] -> ~ occurs sep (before s sep).
Proof.
  intros Hsep; unfold before; destruct (find s sep) as [i|] eqn:F.
  - apply find_Some in F; destruct F as (_ & F & Hi).
    intros (a & b & E).
    assert (length (firstn i s) = i) as L by (apply firstn_length_le; exact Hi).
    rewrite E, !length_app in L.
    assert (length a < i) as La.
    { destruct sep; [congruence|]; simpl in L; lia. }
    specialize (F (length a) La).
    rewrite <- (firstn_skipn i s), E, <- !app_assoc in F.
    rewrite (occurs_startswith a (b ++ skipn i s) sep) in F; discriminate.
  - intros G; apply contains_occurs in G; unfold contains in G.
    rewrite F in G; discriminate.
Qed.

Lemma before_prefix (s sep : str) : exists t, s = before s sep ++ t.
Proof.
  unfold before; destruct (find s sep) as [i|].
  - exists (skipn i s); symmetry; apply firstn_skipn.
  - exists []; rewrite app_nil_r; reflexivity.
Qed.

Lemma not_occurs_before (sep sep' s : str) :
  ~ occurs sep s -> ~ occurs sep (before s sep').
Proof.
  intros H G; apply H; destruct (before_prefix s sep') as (t & E).
  rewrite E; apply (occurs_infix sep (before s sep') [] t G).
Qed.

Lemma lstrip_head (s : str) (c : char) (r : str) :
  lstrip s = c :: r -> isspace c = false.
Proof.
  induction s as [|a s IH]; simpl; [discriminate|].
  destruct (isspace a) eqn:E; [assumption|].
  intros H; inversion H; subst; assumption.
Qed.

(** A trimmed string has no white space at either end. *)
Lemma strip_no_outer_space (s : str) : no_outer_space (strip s).
Proof.
  split.
  - intros c r H. destruct (rstrip_prefix (lstrip s)) as (t & E).
    unfold strip in H; rewrite H in E; simpl in E.
    apply (lstrip_head s c (r ++ t) E).
  - intros r c H. unfold strip, rstrip in H.
    apply (f_equal (@rev char)) in H.
    rewrite rev_involutive, rev_app_distr in H; simpl in H.
    apply (lstrip_head _ _ _ H).
Qed.

Lemma lstrip_fixed (s : str) :
  (forall c r, s = c :: r -> isspace c = false) -> lstrip s = s.
Proof.
  destruct s as [|c r]; [reflexivity|]; intros H; simpl.
  rewrite (H c r eq_refl); reflexivity.
Qed.

(** Trimming twice is trimming once. *)
Lemma strip_idempotent (s : str) : strip (strip s) = strip s.
Proof.
  destruct (strip_no_outer_space s) as (H1 & H2).
  unfold strip at 1; rewrite (lstrip_fixed (strip s) H1).
  unfold rstrip. rewrite lstrip_fixed; [apply rev_involutive|].
  intros c r E. apply (H2 (rev r) c).
  rewrite <- (rev_involutive (strip s)), E; reflexivity.
Qed.

(** ** More on the judge's parser *)

Lemma contains_false_occurs (s sep : str) :
  contains s sep = false <-> ~ occurs sep s.
Proof.
  rewrite <- contains_occurs; destruct (contains s sep); split;
    congruence.
Qed.

Lemma adjudicate_cases (result : str) :
  adjudicate result = Ok fallback \/
  exists x y z,
    adjudicate result =
    Ok (mkVerdict
          (strip (before (before x (lit "SUMMARY:")) (lit "WINNER:")))
          (strip (before (before y (lit "WINNER:")) (lit "JUSTIFICATION:")))
          (strip (before z (lit "JUSTIFICATION:")))).
Proof.
  unfold adjudicate; rewrite parse_verdict_eq.
  destruct (find result (lit "SUMMARY:")) as [i1|]; [|left; reflexivity].
  destruct (find result (lit "WINNER:")) as [i2|]; [|left; reflexivity].
  destruct (find result (lit "JUSTIFICATION:")) as [i3|]; [|left; reflexivity].
  right; eauto.
Qed.

(** X1: the parser succeeds exactly when the three labels are present; the
    only exception it can raise is [IndexError], the one the judge node
    catches. *)
Theorem parse_succeeds_iff_labelled (result : str) :
  ((exists v, parse_verdict result = Ok v) <->
   contains result (lit "SUMMARY:") = true /\
   contains result (lit "WINNER:") = true /\
   contains result (lit "JUSTIFICATION:") = true) /\
  (forall e, parse_verdict result = Raise e -> e = IndexError).
Proof.
  rewrite parse_verdict_eq; unfold contains.
  destruct (find result (lit "SUMMARY:")), (find result (lit "WINNER:")),
    (find result (lit "JUSTIFICATION:")); (split; [split|]);
    try (intros (v & H); discriminate); try (intros (? & ? & ?); discriminate);
    try (intros e H; inversion H; reflexivity); try discriminate; eauto.
Qed.

Lemma parse_succeeds_iff_labelled_witness :
  exists v, parse_verdict (lit "WINNER: x SUMMARY: y JUSTIFICATION: z") = Ok v.
Proof.
  apply (proj2 (proj1 (parse_succeeds_iff_labelled
                         (lit "WINNER: x SUMMARY: y JUSTIFICATION: z")))).
  repeat split; reflexivity.
Defined.

(** X2: whatever the judge answers, none of the three fields the judge node
    returns starts or ends with white space. *)
Theorem verdict_is_trimmed (result : str) :
  exists v,
    adjudicate result = Ok v /\
    no_outer_space (v_summary v) /\
    no_outer_space (v_winner v) /\
    no_outer_space (v_justification v).
Proof.
  destruct (adjudicate_cases result) as [E|(x & y & z & E)];
    rewrite E; eexists; (split; [reflexivity|]); cbn [v_summary v_winner v_justification].
  - repeat split;
      match goal with
      | |- forall c r, ?s = _ :: _ -> _ =>
        change s with (strip s); apply (proj1 (strip_no_outer_space s))
      | |- forall r c, ?s = _ ++ _ -> _ =>
        change s with (strip s); apply (proj2 (strip_no_outer_space s))
      end.
  - repeat split; apply strip_no_outer_space.
Qed.

(** X3: whatever the judge answers, the returned summary contains neither
    [SUMMARY:] nor [WINNER:], the returned winner neither [WINNER:] nor
    [JUSTIFICATION:], and the returned justification no [JUSTIFICATION:]: a
    field always ends before the next label the parser looks for. *)
Theorem verdict_has_no_label (result : str) :
  exists v,
    adjudicate result = Ok v /\
    contains (v_summary v) (lit "SUMMARY:") = false /\
    contains (v_summary v) (lit "WINNER:") = false /\
    contains (v_winner v) (lit "WINNER:") = false /\
    contains (v_winner v) (lit "JUSTIFICATION:") = false /\
    contains (v_justification v) (lit "JUSTIFICATION:") = false.
Proof.
  destruct (adjudicate_cases result) as [E|(x & y & z & E)];
    rewrite E; eexists; (split; [reflexivity|]); cbn [v_summary v_winner v_justification].
  - repeat split; reflexivity.
  - repeat split; apply contains_false_occurs, not_occurs_strip.
    + apply not_occurs_before, before_not_occurs; discriminate.
    + apply before_not_occurs; discriminate.
    + apply not_occurs_before, before_not_occurs; discriminate.
    + apply before_not_occurs; discriminate.
    + apply before_not_occurs; discriminate.
Qed.

(** ** More on the history formatter *)

Lemma rstrip_keeps_prefix (a x : str) (c : char) :
  isspace c = false -> exists t, rstrip (a ++ c :: x) = a ++ c :: t.
Proof.
  intros Hc; destruct (rstrip_cons_nonspace c x Hc) as (r & E).
  exists r; rewrite rstrip_app; rewrite E; [reflexivity | discriminate].
Qed.

(** X4: the formatted history is never empty and never starts or ends with
    white space; for a non-empty transcript it starts with
    "[Round 1] Scientist:", whoever the first utterance is attributed to. *)
Theorem format_history_shape (msgs : list Message) :
  format_history msgs <> [] /\
  no_outer_space (format_history msgs) /\
  (msgs <> [] ->
   startswith (format_history msgs) (lit "[Round 1] Scientist:") = true).
Proof.
  destruct msgs as [|m ms].
  - split; [discriminate|]. split; [|congruence].
    change (format_history []) with (strip (format_history [])).
    apply strip_no_outer_space.
  - assert (exists t, format_history (m :: ms)
                      = lit "[Round 1] Scientist:" ++ t) as (t & E).
    { rewrite format_history_eq by discriminate. rewrite history_from_cons.
      destruct (rstrip_keeps_prefix (lit "[Round 1] Scientist")
                  (32%N :: content m ++ nl ++ history_from 1 ms) 58%N eq_refl)
        as (t & Et).
      exists t; exact Et. }
    split; [rewrite E; discriminate|]. split.
    + apply strip_no_outer_space.
    + intros _; apply startswith_iff; exists t; exact E.
Qed.

Lemma format_history_shape_witness :
  startswith (format_history [AnyMessage (lit "") (lit "Philosopher")])
             (lit "[Round 1] Scientist:") = true.
Proof.
  apply (proj2 (proj2 (format_history_shape
                         [AnyMessage (lit "") (lit "Philosopher")]))).
  discriminate.
Defined.

Lemma history_from_content (a : list Message) :
  forall b k, map content a = map content b -> history_from k a = history_from k b.
Proof.
  induction a as [|x a IH]; intros [|y b] k H; try discriminate; [reflexivity|].
  simpl in H; inversion H as [[H1 H2]].
  rewrite !history_from_cons, (IH b (S k) H2); unfold rendered; rewrite H1.
  reflexivity.
Qed.

(** X5: the formatted history depends on the texts of the utterances only:
    the speaker labels come from the positions, the [name] stored in a message
    is not read. *)
Theorem format_history_ignores_names (a b : list Message) :
  map content a = map content b -> format_history a = format_history b.
Proof.
  intros H; destruct a as [|x a], b as [|y b]; try discriminate; [reflexivity|].
  rewrite !format_history_eq by discriminate.
  rewrite (history_from_content (x :: a) (y :: b) 0 H); reflexivity.
Qed.

Lemma format_history_ignores_names_witness :
  format_history [AnyMessage (lit "point") (lit "Philosopher")]
  = format_history [AnyMessage (lit "point") (lit "Scientist")].
Proof.
  apply (format_history_ignores_names
           [AnyMessage (lit "point") (lit "Philosopher")]
           [AnyMessage (lit "point") (lit "Scientist")]).
  reflexivity.
Defined.

(** ** More on the node executions *)

Lemma message_class_constructs : constructs message_class.
Proof. intros c n m H; inversion H; reflexivity. Qed.

Lemma AnyMessage_call_constructs : constructs AnyMessage_call.
Proof. intros c n m H; discriminate. Qed.

Lemma reachable_in_step (instantiate : str -> str -> res Message) (llm : LLM)
    (st : GraphState) :
  constructs instantiate ->
  reachable instantiate llm st -> in_step st (length (messages st)).
Proof.
  intros C; induction 1 as [topic | st st' n n' _ IH E | st st' n n' _ IH E].
  - apply initial_in_step.
  - apply execute_agent_returns in E; destruct E as (m & Hm & -> & _).
    apply C in Hm; subst m.
    replace (length (messages (apply_update st
               (agent_output st (AnyMessage (utterance_text llm st n)
                                            (next_speaker st))))))
      with (S (length (messages st))).
    + apply turn_in_step; [exact IH | reflexivity].
    + cbn [apply_update agent_output messages u_messages].
      rewrite length_app, Nat.add_1_r; reflexivity.
  - destruct (execute_judge llm st n) as (v & E'); rewrite E' in E.
    inversion E; subst; exact IH.
Qed.

(** X7: in every state reachable from the initial state, the utterance at
    position [i] carries the name Scientist when [i] is even and Philosopher
    when [i] is odd, and the next speaker is the one whose position comes
    next; this holds whether the [AnyMessage] call raises, as in the program,
    or returns the message it was asked for. *)
Theorem speakers_follow_parity (instantiate : str -> str -> res Message)
    (llm : LLM) (st : GraphState) :
  constructs instantiate ->
  reachable instantiate llm st ->
  map name (messages st) = map speaker_label (seq 0 (length (messages st))) /\
  next_speaker st = speaker_label (length (messages st)) /\
  (forall i, speaker_label i =
             if Nat.even i then lit "Scientist" else lit "Philosopher").
Proof.
  intros C H; destruct (reachable_in_step instantiate llm st C H) as (_ & S & N).
  repeat split; [exact N | exact S | apply speaker_label_even].
Qed.

Lemma speakers_follow_parity_witness :
  next_speaker
    (apply_update (initial_state (lit "t"))
                  (agent_output (initial_state (lit "t"))
                                (AnyMessage (stub 0 (agent_request
                                                       (initial_state (lit "t"))))
                                            (lit "Scientist"))))
  = lit "Philosopher".
Proof.
  apply (proj1 (proj2 (speakers_follow_parity message_class stub _
           message_class_constructs
           (@reach_agent message_class stub (initial_state (lit "t")) _ 0 1
              (reach_initial message_class stub (lit "t")) eq_refl)))).
Defined.

Lemma repeats_are_filler_snoc (llm : LLM) (st : GraphState) (n : nat) :
  repeats_are_filler (messages st) ->
  repeats_are_filler
    (messages st ++ [AnyMessage (utterance_text llm st n) (next_speaker st)]).
Proof.
  intros IH front m back H I.
  destruct back as [|x back _] using rev_ind.
  - apply app_inj_tail in H; destruct H as (<- & <-).
    cbn [content] in *; unfold utterance_text.
    rewrite (proj2 (existsb_str_eqb _ _)); [reflexivity|].
    unfold utterance_text in I.
    destruct (existsb _ _) eqn:X; [|exact I].
    apply existsb_str_eqb in X; exact X.
  - change (front ++ m :: back ++ [x]) with (front ++ (m :: back) ++ [x]) in H.
    rewrite app_assoc in H; apply app_inj_tail in H; destruct H as (H & _).
    apply (IH front m back H I).
Qed.

Lemma repeats_by_position (msgs : list Message) :
  repeats_are_filler msgs ->
  forall i j mi mj,
    i < j ->
    nth_error msgs i = Some mi -> nth_error msgs j = Some mj ->
    content mi = content mj -> content mj = filler.
Proof.
  intros R i j mi mj L Hi Hj E.
  destruct (nth_error_split msgs j Hj) as (front & back & -> & Lf).
  apply (R front mj back eq_refl). rewrite <- E.
  apply in_map. rewrite nth_error_app1 in Hi by lia.
  apply (nth_error_In front i Hi).
Qed.

(** X8: in every state reachable from the initial state, an utterance whose
    text equals the text of an earlier utterance is the filler sentence; so
    two utterances of which the later is not the filler have different
    texts: the model's answers that were kept are pairwise different.  This
    holds whether the [AnyMessage] call raises, as in the program, or returns
    the message it was asked for. *)
Theorem repeated_texts_are_filler (instantiate : str -> str -> res Message)
    (llm : LLM) (st : GraphState) :
  constructs instantiate ->
  reachable instantiate llm st ->
  (forall i j mi mj,
      i < j ->
      nth_error (messages st) i = Some mi ->
      nth_error (messages st) j = Some mj ->
      content mi = content mj -> content mj = filler) /\
  (forall i j mi mj,
      i < j ->
      nth_error (messages st) i = Some mi ->
      nth_error (messages st) j = Some mj ->
      content mj <> filler -> content mi <> content mj).
Proof.
  intros C H.
  assert (repeats_are_filler (messages st)) as R.
  { induction H as [topic | st st' n n' _ IH E | st st' n n' _ IH E].
    - intros [|x front] m back H; discriminate.
    - apply execute_agent_returns in E; destruct E as (m & Hm & -> & _).
      apply C in Hm; subst m.
      cbn [apply_update agent_output messages u_messages].
      apply repeats_are_filler_snoc; exact IH.
    - destruct (execute_judge llm st n) as (v & E'); rewrite E' in E.
      inversion E; subst; exact IH. }
  split.
  - apply (repeats_by_position (messages st) R).
  - intros i j mi mj L Hi Hj N E.
    apply N; apply (repeats_by_position (messages st) R i j mi mj L Hi Hj E).
Qed.

(** Four turns of a model that answers "again" three times and then "new":
    the first answer is kept, the second and the third repeat it and are
    replaced by the filler, the fourth is kept and differs from the first. *)
Lemma repeated_texts_are_filler_witness :
  let model : LLM := fun n _ => if Nat.eqb n 3 then lit "new" else lit "again" in
  let st4 :=
    mkState (lit "t")
            [AnyMessage (lit "again") (lit "Scientist");
             AnyMessage filler (lit "Philosopher");
             AnyMessage filler (lit "Scientist");
             AnyMessage (lit "new") (lit "Philosopher")]
            4 (lit "Scientist") None None None in
  reachable message_class model st4 /\
  (content (AnyMessage filler (lit "Philosopher"))
   = content (AnyMessage filler (lit "Scientist")) ->
   content (AnyMessage filler (lit "Scientist")) = filler) /\
  content (AnyMessage (lit "again") (lit "Scientist"))
  <> content (AnyMessage (lit "new") (lit "Philosopher")).
Proof.
  intros model st4.
  assert (reachable message_class model st4) as R.
  { apply (@reach_agent message_class model
             (mkState (lit "t")
                      [AnyMessage (lit "again") (lit "Scientist");
                       AnyMessage filler (lit "Philosopher");
                       AnyMessage filler (lit "Scientist")]
                      3 (lit "Philosopher") None None None) st4 3 4);
      [|reflexivity].
    apply (@reach_agent message_class model
             (mkState (lit "t")
                      [AnyMessage (lit "again") (lit "Scientist");
                       AnyMessage filler (lit "Philosopher")]
                      2 (lit "Scientist") None None None) _ 2 3);
      [|reflexivity].
    apply (@reach_agent message_class model
             (mkState (lit "t") [AnyMessage (lit "again") (lit "Scientist")]
                      1 (lit "Philosopher") None None None) _ 1 2);
      [|reflexivity].
    apply (@reach_agent message_class model (initial_state (lit "t")) _ 0 1);
      [|reflexivity].
    apply reach_initial. }
  split; [exact R|].
  destruct (repeated_texts_are_filler message_class model st4
              message_class_constructs R) as (A & B).
  split.
  - apply (A 1 2 _ _ (le_n 2) eq_refl eq_refl).
  - apply (B 0 3 (AnyMessage (lit "again") (lit "Scientist"))
             (AnyMessage (lit "new") (lit "Philosopher"))
             ltac:(lia) eq_refl eq_refl).
    discriminate.
Defined.

(** X9: node executions only append to the transcript and never change the
    topic: after any number of them the earlier transcript is a prefix of the
    later one, and [round_number] has grown by the number of new utterances;
    this holds whatever the [AnyMessage] call does. *)
Theorem transcript_is_append_only (instantiate : str -> str -> res Message)
    (llm : LLM) (st st' : GraphState) :
  steps instantiate llm st st' ->
  topic st' = topic st /\
  exists new,
    messages st' = messages st ++ new /\
    round_number st' = (round_number st + Z.of_nat (length new))%Z.
Proof.
  induction 1 as [st | st st' st'' n n' _ (T & new & M & R) E
                    | st st' st'' n n' _ (T & new & M & R) E].
  - split; [reflexivity|]. exists []; rewrite app_nil_r; simpl.
    split; [reflexivity | lia].
  - apply execute_agent_returns in E; destruct E as (m & _ & -> & _).
    split; [exact T|].
    exists (new ++ [m]).
    cbn [apply_update agent_output messages u_messages round_number
         u_round_number overwrite].
    rewrite M, R, app_assoc, length_app; simpl. split; [reflexivity | lia].
  - destruct (execute_judge llm st' n) as (v & E'); rewrite E' in E.
    inversion E; subst; clear E. split; [exact T|]. exists new; split; assumption.
Qed.

Lemma transcript_is_append_only_witness :
  topic (apply_update (initial_state (lit "t"))
                      (agent_output (initial_state (lit "t"))
                                    (AnyMessage (stub 0 (agent_request
                                                           (initial_state (lit "t"))))
                                                (lit "Scientist"))))
  = lit "t".
Proof.
  apply (proj1 (transcript_is_append_only message_class stub
                  (initial_state (lit "t")) _
           (@steps_agent message_class stub (initial_state (lit "t"))
              (initial_state (lit "t")) _ 0 1
              (steps_none message_class stub (initial_state (lit "t")))
              eq_refl))).
Defined.

